(** * CAtomic: the process-wide unique identifier counter of swift-markdown

    Source: [Sources/CAtomic/CAtomic.c] and [Sources/CAtomic/include/CAtomic.h].

    The translation unit owns one object with static storage duration,
    [static _Atomic uint64_t _cmarkup_unique_id = 0;], and exports two
    functions that touch nothing else:

    - [_cmarkup_current_unique_id] evaluates the lvalue [_cmarkup_unique_id],
      an atomic load;
    - [_cmarkup_increment_and_get_unique_id] evaluates [++_cmarkup_unique_id],
      which C11 defines as [_cmarkup_unique_id += 1]: a single atomic
      read-modify-write whose value is the value stored.

    A [uint64_t] is a [Z] with the reduction modulo [2^64] written out.  The
    functions are computations in a state monad over the memory of the
    translation unit; a multi-threaded execution is an interleaving of whole
    calls, each call being one indivisible access to the object.  Module
    [Process] gives the same two functions over the store of the whole
    process, in which the counter is one named object among all others. *)

From Stdlib Require Import ZArith NArith Lia.
From stdpp Require Import strings functions.
From stdpp Require Import base numbers list relations.

Local Open Scope Z_scope.

Module CAtomic.

(** ** [uint64_t] *)

Definition UINT64_MAX : Z := 2 ^ 64 - 1.

Definition is_uint64 (z : Z) : Prop := 0 <= z <= UINT64_MAX.

(** Unsigned arithmetic is reduced modulo [UINT64_MAX + 1]. *)
Definition wrap_uint64 (z : Z) : Z := z mod 2 ^ 64.

(** ** The memory of the translation unit *)

(** [static _Atomic uint64_t _cmarkup_unique_id] is the only object. *)
Record memory : Type := Memory { _cmarkup_unique_id : Z }.

(** Static initialisation: [= 0]. *)
Definition process_start : memory := {| _cmarkup_unique_id := 0 |}.

Definition well_typed (m : memory) : Prop := is_uint64 (_cmarkup_unique_id m).

(** ** Computations over the memory *)

Definition C (A : Type) : Type := memory -> A * memory.

Definition ret {A : Type} (a : A) : C A := fun m => (a, m).

Definition bind {A B : Type} (c : C A) (k : A -> C B) : C B :=
  fun m => let '(a, m') := c m in k a m'.

Notation "x <- c ;; k" := (bind c (fun x => k))
  (at level 100, c at next level, right associativity).

(** Lvalue conversion of the atomic object: a load. *)
Definition atomic_load : C Z :=
  fun m => (_cmarkup_unique_id m, m).

(** The read-modify-write behind compound assignment on an atomic object:
    stores [old + d] reduced to the type and yields the value read. *)
Definition atomic_fetch_add (d : Z) : C Z :=
  fun m =>
    let old := _cmarkup_unique_id m in
    (old, {| _cmarkup_unique_id := wrap_uint64 (old + d) |}).

(** [++E] is [E += 1]; its value is the value of [E] after the assignment. *)
Definition atomic_pre_increment : C Z :=
  old <- atomic_fetch_add 1 ;;
  ret (wrap_uint64 (old + 1)).

(** ** The two exported functions *)

(** [uint64_t _cmarkup_current_unique_id(void) { return _cmarkup_unique_id; }] *)
Definition _cmarkup_current_unique_id : C Z := atomic_load.

(** [uint64_t _cmarkup_increment_and_get_unique_id(void) { return ++_cmarkup_unique_id; }] *)
Definition _cmarkup_increment_and_get_unique_id : C Z := atomic_pre_increment.

(** ** Sequences of calls made by one thread *)

Inductive call : Type :=
  | Current
  | IncrementAndGet.

Definition perform (c : call) : C Z :=
  match c with
  | Current => _cmarkup_current_unique_id
  | IncrementAndGet => _cmarkup_increment_and_get_unique_id
  end.

(** Performs the calls in order and collects the values they return. *)
Fixpoint run (cs : list call) : C (list Z) :=
  match cs with
  | [] => ret []
  | c :: cs' =>
      v <- perform c ;;
      vs <- run cs' ;;
      ret (v :: vs)
  end.

(** The same call made [K] times in a row, returned values dropped.  [K] is a
    binary number so that counts beyond the range of the counter can be
    written. *)
Definition repeat_call (c : call) (K : N) (m : memory) : memory :=
  N.iter K (fun m' => (perform c m').2) m.

(** A call wraps when it is an increment that finds the counter at
    [UINT64_MAX]. *)
Definition wraps (c : call) (m : memory) : bool :=
  match c with
  | Current => false
  | IncrementAndGet => bool_decide (_cmarkup_unique_id m = UINT64_MAX)
  end.

(** Whether some call of the sequence wraps when it is run from [m]. *)
Fixpoint wrapped (cs : list call) (m : memory) : bool :=
  match cs with
  | [] => false
  | c :: cs' => wraps c m || wrapped cs' (perform c m).2
  end.

(** ** Threads

    Every access to [_cmarkup_unique_id] is atomic and sequentially
    consistent, and each exported function makes exactly one access, so an
    execution of several threads is an interleaving of whole calls.  The
    threads considered here call [_cmarkup_increment_and_get_unique_id] once
    each; [returned] holds, per thread, the value it got back, [None] while
    the thread has not made its call yet. *)

Record pool : Type := Pool {
  shared : memory;
  returned : list (option Z)
}.

(** [N] threads launched on a fresh process. *)
Definition launch (N : nat) : pool :=
  {| shared := process_start; returned := replicate N None |}.

(** The scheduler picks any thread [t] that has not run; its call is performed
    on the shared memory in one step. *)
Inductive pool_step : pool -> pool -> Prop :=
  | thread_calls (t : nat) (p : pool) (v : Z) (m' : memory) :
      returned p !! t = Some None ->
      _cmarkup_increment_and_get_unique_id (shared p) = (v, m') ->
      pool_step p {| shared := m'; returned := <[t := Some v]> (returned p) |}.

Definition execution (N : nat) (p : pool) : Prop := rtc pool_step (launch N) p.

Definition finished (p : pool) : Prop := Forall is_Some (returned p).

(** The values handed out so far, in thread order. *)
Definition returned_values (p : pool) : list Z := omap id (returned p).

(** The threads run one after the other in launch order: the pool after the
    first [k] of [N] threads made their call. *)
Definition in_launch_order (N k : nat) : pool :=
  {| shared := {| _cmarkup_unique_id := wrap_uint64 (Z.of_nat k) |};
     returned := ((fun i => Some (wrap_uint64 (Z.of_nat i))) <$> seq 1 k)
                   ++ replicate (N - k) None |}.

(** The identifiers [1, 2, ..., N]. *)
Definition first_ids (N : nat) : list Z := Z.of_nat <$> seq 1 N.

(** As many threads as a [uint64_t] has values. *)
Definition two_64_threads : nat := Z.to_nat (2 ^ 64).

(** Three threads after the schedule "third, first, second". *)
Definition three_threads_done : pool :=
  {| shared := {| _cmarkup_unique_id := 3 |};
     returned := [Some 2; Some 3; Some 1] |}.

(** ** What a sequence of calls hands out *)

(** The number of [IncrementAndGet] calls in a sequence. *)
Fixpoint increments (cs : list call) : nat :=
  match cs with
  | [] => 0%nat
  | Current :: cs' => increments cs'
  | IncrementAndGet :: cs' => S (increments cs')
  end.

(** The value of a logged call if the call issued an identifier. *)
Definition issued_value (e : call * Z) : option Z :=
  match e.1 with
  | IncrementAndGet => Some e.2
  | Current => None
  end.

(** The identifiers [1, 2, ..., k] as a [uint64_t] counter reaches them. *)
Definition wrapped_ids (k : nat) : list Z :=
  (fun i => wrap_uint64 (Z.of_nat i)) <$> seq 1 k.

(** ** Threads that make any number of calls

    The general caller: every thread has a sequence of calls to make, [todo],
    and the calls it has made with the values it got back, [log], oldest
    first.  As above a step is one whole call of one thread on the shared
    memory. *)

Record thread : Type := Thread {
  todo : list call;
  log : list (call * Z)
}.

Record system : Type := System {
  mem : memory;
  threads : list thread
}.

(** A fresh process, one thread per program. *)
Definition boot (programs : list (list call)) : system :=
  {| mem := process_start;
     threads := (fun cs => {| todo := cs; log := [] |}) <$> programs |}.

Inductive system_step : system -> system -> Prop :=
  | thread_performs (t : nat) (sys : system) (c : call) (cs : list call)
        (lg : list (call * Z)) (v : Z) (m' : memory) :
      threads sys !! t = Some {| todo := c :: cs; log := lg |} ->
      perform c (mem sys) = (v, m') ->
      system_step sys
        {| mem := m';
           threads := <[t := {| todo := cs; log := lg ++ [(c, v)] |}]>
                        (threads sys) |}.

Definition reachable (programs : list (list call)) (sys : system) : Prop :=
  rtc system_step (boot programs) sys.

(** The identifiers handed out so far, over all threads. *)
Definition issued (sys : system) : list Z :=
  concat ((fun th => omap issued_value (log th)) <$> threads sys).

(** Two threads, one incrementing then reading, one reading then
    incrementing, after the schedule "first, second, second, first". *)
Definition two_programs : list (list call) :=
  [[IncrementAndGet; Current]; [Current; IncrementAndGet]].

Definition two_programs_done : system :=
  {| mem := {| _cmarkup_unique_id := 2 |};
     threads := [ {| todo := []; log := [(IncrementAndGet, 1); (Current, 2)] |};
                  {| todo := []; log := [(Current, 1); (IncrementAndGet, 2)] |} ] |}.

(** ** The functions inside a process

    The translation unit is linked into a process that holds many other
    objects.  Here the store gives every object of the process, by name, its
    value, and the two functions are written over that store: each body names
    one object, [_cmarkup_unique_id], and nothing else. *)

Module Process.

Abbreviation store := (string -> Z).

(** The object declared on line 13. *)
Definition counter : string := "_cmarkup_unique_id".

Definition P (A : Type) : Type := store -> A * store.

(** Lvalue conversion of the atomic object [x]. *)
Definition atomic_load (x : string) : P Z :=
  fun h => (h x, h).

(** The read-modify-write [x += d] on the atomic object [x]; yields the
    value read. *)
Definition atomic_fetch_add (x : string) (d : Z) : P Z :=
  fun h => (h x, <[x := wrap_uint64 (h x + d)]> h).

(** [++x]: the value is the one stored. *)
Definition atomic_pre_increment (x : string) : P Z :=
  fun h =>
    let '(old, h') := atomic_fetch_add x 1 h in
    (wrap_uint64 (old + 1), h').

(** [return _cmarkup_unique_id;] *)
Definition _cmarkup_current_unique_id : P Z := atomic_load counter.

(** [return ++_cmarkup_unique_id;] *)
Definition _cmarkup_increment_and_get_unique_id : P Z :=
  atomic_pre_increment counter.

Definition perform (c : call) : P Z :=
  match c with
  | Current => _cmarkup_current_unique_id
  | IncrementAndGet => _cmarkup_increment_and_get_unique_id
  end.

(** The memory of the translation unit as it sits in the store. *)
Definition unit_memory (h : store) : memory :=
  {| _cmarkup_unique_id := h counter |}.

(** Two stores that hold the same counter and differ in every other
    object. *)
Definition store_a : store :=
  fun x => if String.eqb x counter then 2 ^ 64 - 1 else 7.

Definition store_b : store :=
  fun x => if String.eqb x counter then 2 ^ 64 - 1 else 1000.

End Process.

(** ** Basic facts about the model *)

Lemma two_64 : 2 ^ 64 = 18446744073709551616.
Proof. reflexivity. Qed.

Lemma wrap_uint64_range (z : Z) : is_uint64 (wrap_uint64 z).
Proof.
  unfold is_uint64, wrap_uint64, UINT64_MAX.
  pose proof (Z.mod_pos_bound z (2 ^ 64)) as Hb. rewrite two_64 in *. lia.
Qed.

Lemma wrap_uint64_small (z : Z) : is_uint64 z -> wrap_uint64 z = z.
Proof.
  unfold is_uint64, wrap_uint64, UINT64_MAX. rewrite two_64.
  intros Hz. apply Z.mod_small. lia.
Qed.

Lemma current_unfold (m : memory) :
  _cmarkup_current_unique_id m = (_cmarkup_unique_id m, m).
Proof. reflexivity. Qed.

Lemma increment_unfold (m : memory) :
  _cmarkup_increment_and_get_unique_id m =
    (wrap_uint64 (_cmarkup_unique_id m + 1),
     {| _cmarkup_unique_id := wrap_uint64 (_cmarkup_unique_id m + 1) |}).
Proof. reflexivity. Qed.

Lemma perform_well_typed (c : call) (m : memory) :
  well_typed m -> is_uint64 (perform c m).1 /\ well_typed (perform c m).2.
Proof.
  intros Hm. destruct c; unfold perform.
  - rewrite current_unfold. split; exact Hm.
  - rewrite increment_unfold. split; apply wrap_uint64_range.
Qed.

Example run_sample :
  run [Current; IncrementAndGet; IncrementAndGet; Current] process_start =
    ([0; 1; 2; 2], {| _cmarkup_unique_id := 2 |}).
Proof. reflexivity. Qed.

Example run_sample_at_max :
  run [IncrementAndGet; Current] {| _cmarkup_unique_id := UINT64_MAX |} =
    ([0; 0], {| _cmarkup_unique_id := 0 |}).
Proof. reflexivity. Qed.

(** ** Single calls *)

(** C1 (as amended).  From every counter state, [incrementAndGet] stores the
    old value plus one reduced modulo [2^64] and returns the value stored; of
    two calls in a row the second returns the first's value plus one, except
    after [UINT64_MAX], where it returns [0]. *)
Theorem increment_and_get_post_increment (m : memory) :
  let r1 := _cmarkup_increment_and_get_unique_id m in
  let r2 := _cmarkup_increment_and_get_unique_id r1.2 in
  _cmarkup_unique_id r1.2 = wrap_uint64 (_cmarkup_unique_id m + 1)
  /\ r1.1 = _cmarkup_unique_id r1.2
  /\ r2.1 = (if decide (r1.1 = UINT64_MAX) then 0 else r1.1 + 1).
Proof.
  cbv zeta. rewrite !increment_unfold. cbn [fst snd _cmarkup_unique_id].
  split; [reflexivity | split; [reflexivity |]].
  pose proof (wrap_uint64_range (_cmarkup_unique_id m + 1)) as Hr.
  set (v := wrap_uint64 (_cmarkup_unique_id m + 1)) in *.
  destruct (decide (v = UINT64_MAX)) as [-> | Hne].
  - reflexivity.
  - apply wrap_uint64_small. unfold is_uint64 in *. lia.
Qed.

(** C1 (as stated) fails two calls before the boundary: from [2^64 - 2] the
    first call returns [2^64 - 1] and the second returns [0]. *)
Lemma increment_twice_not_successor :
  well_typed {| _cmarkup_unique_id := 2 ^ 64 - 2 |}
  /\ (_cmarkup_increment_and_get_unique_id
        {| _cmarkup_unique_id := 2 ^ 64 - 2 |}).1 = 2 ^ 64 - 1
  /\ (_cmarkup_increment_and_get_unique_id
        (_cmarkup_increment_and_get_unique_id
           {| _cmarkup_unique_id := 2 ^ 64 - 2 |}).2).1 = 0
  /\ (_cmarkup_increment_and_get_unique_id
        (_cmarkup_increment_and_get_unique_id
           {| _cmarkup_unique_id := 2 ^ 64 - 2 |}).2).1 <>
      (_cmarkup_increment_and_get_unique_id
         {| _cmarkup_unique_id := 2 ^ 64 - 2 |}).1 + 1.
Proof.
  split; [| split; [| split]].
  - unfold well_typed, is_uint64, UINT64_MAX. cbn [_cmarkup_unique_id].
    rewrite two_64. lia.
  - reflexivity.
  - reflexivity.
  - vm_compute. discriminate.
Qed.

(** C2.  The counter starts at zero: on a fresh process [current] returns [0]
    and the first [incrementAndGet] returns [1]; both also hold after any
    number [k] of calls of [current]. *)
Theorem fresh_process_values (k : N) :
  (_cmarkup_current_unique_id process_start).1 = 0
  /\ (_cmarkup_increment_and_get_unique_id process_start).1 = 1
  /\ (_cmarkup_current_unique_id (repeat_call Current k process_start)).1 = 0
  /\ (_cmarkup_increment_and_get_unique_id
        (repeat_call Current k process_start)).1 = 1.
Proof.
  split; [reflexivity | split; [reflexivity |]].
  replace (repeat_call Current k process_start) with process_start;
    [split; reflexivity |].
  unfold repeat_call. induction k as [| k IH] using N.peano_ind.
  - reflexivity.
  - rewrite N.iter_succ, <- IH. reflexivity.
Qed.

(** C5.  At [2^64 - 1] the next [incrementAndGet] stores [0] and returns [0],
    an ordinary return value. *)
Theorem increment_and_get_wraps_to_zero :
  _cmarkup_increment_and_get_unique_id {| _cmarkup_unique_id := 2 ^ 64 - 1 |} =
    (0, {| _cmarkup_unique_id := 0 |}).
Proof. reflexivity. Qed.

(** C6.  [current] returns the value of the counter and leaves the memory as
    it found it. *)
Theorem current_reads_without_writing (m : memory) :
  _cmarkup_current_unique_id m = (_cmarkup_unique_id m, m).
Proof. apply current_unfold. Qed.

(** C7.  Two calls of [current] in a row return the same value. *)
Theorem current_twice_same_value (m : memory) :
  let r1 := _cmarkup_current_unique_id m in
  let r2 := _cmarkup_current_unique_id r1.2 in
  r1.1 = r2.1.
Proof. cbv zeta. rewrite !current_unfold. reflexivity. Qed.

(** C8.  Neither function can fail: on every well-typed memory each of them
    returns a [uint64_t] and leaves a well-typed memory. *)
Theorem calls_always_return (c : call) (m : memory) :
  well_typed m ->
  exists (v : Z) (m' : memory),
    perform c m = (v, m') /\ is_uint64 v /\ well_typed m'.
Proof.
  intros Hm. exists (perform c m).1, (perform c m).2.
  split; [apply surjective_pairing | by apply perform_well_typed].
Qed.

Lemma calls_always_return_witness :
  well_typed {| _cmarkup_unique_id := 2 ^ 64 - 1 |}
  /\ exists (v : Z) (m' : memory),
       perform IncrementAndGet {| _cmarkup_unique_id := 2 ^ 64 - 1 |} = (v, m')
       /\ is_uint64 v /\ well_typed m'.
Proof.
  assert (H : well_typed {| _cmarkup_unique_id := 2 ^ 64 - 1 |}).
  { unfold well_typed, is_uint64, UINT64_MAX. simpl. lia. }
  split; [exact H |].
  exact (calls_always_return IncrementAndGet _ H).
Defined.

Lemma process_current_unfold (h : Process.store) :
  Process._cmarkup_current_unique_id h = (h Process.counter, h).
Proof. reflexivity. Qed.

Lemma process_increment_unfold (h : Process.store) :
  Process._cmarkup_increment_and_get_unique_id h =
    (wrap_uint64 (h Process.counter + 1),
     <[Process.counter := wrap_uint64 (h Process.counter + 1)]> h).
Proof. reflexivity. Qed.

(** The functions over the store of the process are the functions over the
    memory of the translation unit: same returned value, same counter left. *)
Lemma process_perform_unit (c : call) (h : Process.store) :
  (Process.perform c h).1 = (perform c (Process.unit_memory h)).1
  /\ Process.unit_memory (Process.perform c h).2 =
       (perform c (Process.unit_memory h)).2.
Proof.
  destruct c; unfold Process.perform, perform.
  - by rewrite process_current_unfold, current_unfold.
  - rewrite process_increment_unfold, increment_unfold. cbn [fst snd].
    unfold Process.unit_memory. by rewrite fn_lookup_insert.
Qed.

(** C10.  Each function is a function of the counter alone.  Run in two
    stores of the process that hold the same counter value and are otherwise
    arbitrary, hence may differ in every other object, the same call returns
    the same value and leaves the same counter value; and it leaves every
    other object of either store as it found it. *)
Theorem calls_determined_by_counter (c : call) (h1 h2 : Process.store) :
  h1 Process.counter = h2 Process.counter ->
  (Process.perform c h1).1 = (Process.perform c h2).1
  /\ (Process.perform c h1).2 Process.counter =
       (Process.perform c h2).2 Process.counter
  /\ forall x : string,
       x <> Process.counter ->
       (Process.perform c h1).2 x = h1 x /\ (Process.perform c h2).2 x = h2 x.
Proof.
  intros Heq. destruct c; unfold Process.perform.
  - rewrite !process_current_unfold. cbn [fst snd].
    split; [exact Heq | split; [exact Heq | done]].
  - rewrite !process_increment_unfold. cbn [fst snd].
    rewrite !fn_lookup_insert, Heq.
    split; [done | split; [done |]].
    intros x Hx. by rewrite !fn_lookup_insert_ne.
Qed.

Lemma calls_determined_by_counter_witness :
  Process.store_a Process.counter = Process.store_b Process.counter
  /\ (Process.perform IncrementAndGet Process.store_a).1 =
       (Process.perform IncrementAndGet Process.store_b).1
  /\ (Process.perform IncrementAndGet Process.store_a).2 Process.counter =
       (Process.perform IncrementAndGet Process.store_b).2 Process.counter
  /\ forall x : string,
       x <> Process.counter ->
       (Process.perform IncrementAndGet Process.store_a).2 x =
         Process.store_a x
       /\ (Process.perform IncrementAndGet Process.store_b).2 x =
            Process.store_b x.
Proof.
  split; [reflexivity |].
  apply (calls_determined_by_counter IncrementAndGet
           Process.store_a Process.store_b).
  reflexivity.
Defined.

(** ** Sequences of calls *)

Lemma repeat_increment_counter (K : N) :
  _cmarkup_unique_id (repeat_call IncrementAndGet K process_start) =
    wrap_uint64 (Z.of_N K).
Proof.
  unfold repeat_call. induction K as [| K IH] using N.peano_ind.
  - reflexivity.
  - rewrite N.iter_succ. unfold perform at 1. rewrite increment_unfold.
    cbn [snd _cmarkup_unique_id]. rewrite IH. unfold wrap_uint64.
    rewrite Zplus_mod_idemp_l. f_equal. lia.
Qed.

Lemma current_after_increments (K : N) :
  (_cmarkup_current_unique_id (repeat_call IncrementAndGet K process_start)).1 =
    Z.of_N K mod 2 ^ 64.
Proof. rewrite current_unfold. apply repeat_increment_counter. Qed.

(** C3 (as amended).  After [K] calls of [incrementAndGet] on a fresh process,
    [K] below [2^64], [current] returns [K]. *)
Theorem current_after_K_increments (K : N) :
  (K < 2 ^ 64)%N ->
  (_cmarkup_current_unique_id (repeat_call IncrementAndGet K process_start)).1 =
    Z.of_N K.
Proof.
  intros HK. rewrite current_after_increments. apply Z.mod_small.
  rewrite two_64. change (2 ^ 64)%N with 18446744073709551616%N in HK. lia.
Qed.

Lemma current_after_K_increments_witness :
  (_cmarkup_current_unique_id (repeat_call IncrementAndGet 5 process_start)).1 =
    5.
Proof. apply (current_after_K_increments 5). reflexivity. Defined.

(** C3 (as stated) fails at [K = 2^64]: the counter is back at [0]. *)
Lemma current_after_2_64_increments :
  (_cmarkup_current_unique_id
     (repeat_call IncrementAndGet (2 ^ 64) process_start)).1 = 0
  /\ (_cmarkup_current_unique_id
        (repeat_call IncrementAndGet (2 ^ 64) process_start)).1 <>
      Z.of_N (2 ^ 64).
Proof.
  rewrite current_after_increments. split.
  - reflexivity.
  - vm_compute. discriminate.
Qed.

Lemma run_cons (c : call) (cs : list call) (m : memory) :
  run (c :: cs) m =
    ((perform c m).1 :: (run cs (perform c m).2).1, (run cs (perform c m).2).2).
Proof.
  cbn [run]. unfold bind, ret.
  destruct (perform c m) as [v m1]. cbn [fst snd].
  by destruct (run cs m1) as [vs m2].
Qed.

Lemma run_app (cs1 cs2 : list call) (m : memory) :
  run (cs1 ++ cs2) m =
    ((run cs1 m).1 ++ (run cs2 (run cs1 m).2).1, (run cs2 (run cs1 m).2).2).
Proof.
  revert m. induction cs1 as [| c cs1 IH]; intros m.
  - cbn [app run]. unfold ret. cbn [fst snd app]. by destruct (run cs2 m).
  - rewrite <- app_comm_cons, !run_cons, IH. reflexivity.
Qed.

Lemma run_length (cs : list call) (m : memory) :
  length (run cs m).1 = length cs.
Proof.
  revert m. induction cs as [| c cs IH]; intros m; [reflexivity |].
  rewrite run_cons. cbn [fst length]. by rewrite IH.
Qed.

Lemma wrapped_app (cs1 cs2 : list call) (m : memory) :
  wrapped (cs1 ++ cs2) m = wrapped cs1 m || wrapped cs2 (run cs1 m).2.
Proof.
  revert m. induction cs1 as [| c cs1 IH]; intros m; [reflexivity |].
  rewrite <- app_comm_cons, run_cons. cbn [wrapped snd].
  by rewrite IH, orb_assoc.
Qed.

(** A call that does not wrap never lowers the counter, returns at most the
    counter it leaves, and, for an increment, returns the old counter plus
    one. *)
Lemma perform_no_wrap (c : call) (m : memory) :
  well_typed m -> wraps c m = false ->
  well_typed (perform c m).2
  /\ _cmarkup_unique_id m <= _cmarkup_unique_id (perform c m).2
  /\ (perform c m).1 <= _cmarkup_unique_id (perform c m).2
  /\ (c = IncrementAndGet -> (perform c m).1 = _cmarkup_unique_id m + 1).
Proof.
  intros Hm Hw. destruct c; unfold perform.
  - rewrite current_unfold. cbn [fst snd].
    split; [exact Hm | split; [lia | split; [lia | done]]].
  - rewrite increment_unfold. cbn [fst snd _cmarkup_unique_id].
    cbn [wraps] in Hw. apply bool_decide_eq_false in Hw.
    rewrite wrap_uint64_small.
    + unfold well_typed, is_uint64 in *. cbn [_cmarkup_unique_id].
      split; [lia | split; [lia | split; [lia | reflexivity]]].
    + unfold well_typed, is_uint64 in *. lia.
Qed.

(** Without wraparound the counter bounds every value returned so far. *)
Lemma run_no_wrap (cs : list call) (m : memory) :
  well_typed m -> wrapped cs m = false ->
  well_typed (run cs m).2
  /\ Forall (fun v => v <= _cmarkup_unique_id (run cs m).2) (run cs m).1.
Proof.
  revert m. induction cs as [| c cs IH]; intros m Hm Hw.
  - split; [exact Hm | constructor].
  - cbn [wrapped] in Hw. apply orb_false_iff in Hw as [Hw1 Hw2].
    destruct (perform_no_wrap c m Hm Hw1) as (Hm1 & _ & Hv & _).
    destruct (IH _ Hm1 Hw2) as [Hm2 Hvs].
    rewrite run_cons. cbn [fst snd]. split; [exact Hm2 |].
    constructor; [| exact Hvs].
    assert (Hmono : forall cs' m', well_typed m' -> wrapped cs' m' = false ->
              _cmarkup_unique_id m' <= _cmarkup_unique_id (run cs' m').2).
    { clear. induction cs' as [| c' cs' IH']; intros m' Hm' Hw'.
      - cbn. lia.
      - cbn [wrapped] in Hw'. apply orb_false_iff in Hw' as [Hw1 Hw2].
        destruct (perform_no_wrap c' m' Hm' Hw1) as (Hm1 & Hle & _).
        rewrite run_cons. cbn [snd]. specialize (IH' _ Hm1 Hw2). lia. }
    specialize (Hmono cs _ Hm1 Hw2). lia.
Qed.

Lemma increment_exceeds_earlier_from (m : memory) (cs : list call)
    (i j : nat) (vi vj : Z) :
  well_typed m ->
  wrapped (take (S j) cs) m = false ->
  (i < j)%nat ->
  cs !! j = Some IncrementAndGet ->
  (run cs m).1 !! i = Some vi ->
  (run cs m).1 !! j = Some vj ->
  vi < vj.
Proof.
  intros Hm Hw Hij Hj Hvi Hvj.
  pose proof (lookup_lt_Some _ _ _ Hj) as Hlen.
  rewrite (take_S_r _ _ _ Hj), wrapped_app in Hw.
  apply orb_false_iff in Hw as [Hpre Hat].
  cbn [wrapped] in Hat. rewrite orb_false_r in Hat.
  rewrite <- (take_drop_middle _ _ _ Hj), run_app, run_cons in Hvi, Hvj.
  cbn [fst snd] in Hvi, Hvj.
  set (pre := take j cs) in *.
  assert (Hlpre : length (run pre m).1 = j).
  { rewrite run_length. unfold pre. rewrite length_take. lia. }
  rewrite lookup_app_l in Hvi by lia.
  rewrite lookup_app_r in Hvj by lia.
  rewrite Hlpre, Nat.sub_diag in Hvj. cbn in Hvj. injection Hvj as <-.
  destruct (run_no_wrap pre m Hm Hpre) as [Hm1 Hvs].
  rewrite Forall_lookup in Hvs. specialize (Hvs _ _ Hvi). cbn beta in Hvs.
  destruct (perform_no_wrap IncrementAndGet _ Hm1 Hat) as (_ & _ & _ & Hinc).
  change (wrap_uint64 (_cmarkup_unique_id (run pre m).2 + 1))
    with (perform IncrementAndGet (run pre m).2).1.
  rewrite (Hinc eq_refl). lia.
Qed.

Lemma process_start_well_typed : well_typed process_start.
Proof.
  unfold well_typed, is_uint64, UINT64_MAX, process_start.
  cbn [_cmarkup_unique_id]. rewrite two_64. lia.
Qed.

(** C4.  In every sequence of calls made on a fresh process, a call of
    [incrementAndGet] (the one at position [j]) returns a value strictly
    greater than the value returned by any earlier call (position [i]) of
    either function, provided no call up to and including it wrapped. *)
Theorem increment_exceeds_earlier_values (cs : list call) (i j : nat)
    (vi vj : Z) :
  wrapped (take (S j) cs) process_start = false ->
  (i < j)%nat ->
  cs !! j = Some IncrementAndGet ->
  (run cs process_start).1 !! i = Some vi ->
  (run cs process_start).1 !! j = Some vj ->
  vi < vj.
Proof.
  apply increment_exceeds_earlier_from, process_start_well_typed.
Qed.

Lemma increment_exceeds_earlier_values_witness :
  wrapped (take 3 [Current; IncrementAndGet; IncrementAndGet; Current])
    process_start = false
  /\ 1 < 2.
Proof.
  split; [reflexivity |].
  apply (increment_exceeds_earlier_values
           [Current; IncrementAndGet; IncrementAndGet; Current] 1 2 1 2);
    [reflexivity | apply Nat.lt_succ_diag_r | reflexivity | reflexivity
    | reflexivity].
Defined.

(** ** Concurrent callers *)

Section Returned.
Implicit Types (l : list (option Z)) (t : nat) (v : Z).

Lemma omap_id_insert l t v :
  l !! t = Some None -> omap id (<[t := Some v]> l) ≡ₚ v :: omap id l.
Proof.
  revert t. induction l as [| o l IH]; intros t Ht; [done |].
  destruct t as [| t].
  - cbn in Ht. injection Ht as ->. reflexivity.
  - cbn in Ht. specialize (IH t Ht). destruct o as [w |]; cbn.
    + rewrite IH. apply perm_swap.
    + exact IH.
Qed.

Lemma omap_id_length_le l : (length (omap id l) <= length l)%nat.
Proof.
  induction l as [| [w |] l IH]; cbn; [lia | | ]; cbn in *; lia.
Qed.

Lemma omap_id_length_lt l t :
  l !! t = Some None -> (length (omap id l) < length l)%nat.
Proof.
  revert t. induction l as [| o l IH]; intros t Ht; [done |].
  destruct t as [| t].
  - cbn in Ht. injection Ht as ->. cbn.
    pose proof (omap_id_length_le l). lia.
  - cbn in Ht. specialize (IH t Ht). destruct o; cbn in *; lia.
Qed.

Lemma omap_id_length_all l :
  Forall is_Some l -> length (omap id l) = length l.
Proof.
  induction 1 as [| o l [w ->] _ IH]; [done |]. cbn in *. by rewrite IH.
Qed.

Lemma omap_id_fmap_Some (vs : list Z) : omap id (Some <$> vs) = vs.
Proof. induction vs as [| w vs IH]; [done |]. cbn. by rewrite IH. Qed.
End Returned.

Lemma first_ids_S (k : nat) :
  first_ids (S k) = first_ids k ++ [Z.of_nat (S k)].
Proof. unfold first_ids. by rewrite seq_S, fmap_app. Qed.

Lemma first_ids_length (k : nat) : length (first_ids k) = k.
Proof. unfold first_ids. by rewrite length_fmap, length_seq. Qed.

Lemma first_ids_NoDup (k : nat) : NoDup (first_ids k).
Proof. unfold first_ids. apply (NoDup_fmap_2 _), NoDup_seq. Qed.

(** What every reachable pool satisfies while the counter cannot wrap: the
    counter counts the calls made, and the values handed out are
    [1, ..., counter] in some order. *)
Lemma execution_invariant (N : nat) (p : pool) :
  Z.of_nat N < 2 ^ 64 -> execution N p ->
  length (returned p) = N
  /\ exists k : nat,
       _cmarkup_unique_id (shared p) = Z.of_nat k
       /\ returned_values p ≡ₚ first_ids k.
Proof.
  intros HN. unfold execution. revert p. apply rtc_ind_r.
  - split; [apply length_replicate |]. exists 0%nat. split; [done |].
    unfold returned_values, launch. cbn [returned].
    induction N as [| N IH]; [done |]. cbn. apply IH. lia.
  - intros p q _ Hstep (Hlen & k & Hk & Hperm).
    destruct Hstep as [t p v m' Ht Hcall]. cbn [shared returned].
    split; [by rewrite length_insert |].
    rewrite increment_unfold in Hcall. injection Hcall as <- <-.
    pose proof (omap_id_length_lt _ _ Ht) as Hlt.
    apply Permutation_length in Hperm as Hcount.
    unfold returned_values in *. rewrite first_ids_length in Hcount.
    exists (S k). rewrite Hk, wrap_uint64_small.
    + cbn [_cmarkup_unique_id]. split; [lia |].
      cbn [returned]. rewrite (omap_id_insert _ _ _ Ht).
      replace (Z.of_nat k + 1) with (Z.of_nat (S k)) by lia.
      rewrite first_ids_S, Hperm. apply Permutation_cons_append.
    + unfold is_uint64, UINT64_MAX. lia.
Qed.

(** Running the threads one after the other is an execution. *)
Lemma in_launch_order_execution (N k : nat) :
  (k <= N)%nat -> execution N (in_launch_order N k).
Proof.
  unfold execution. induction k as [| k IH]; intros Hk.
  - unfold in_launch_order, launch. rewrite Nat.sub_0_r. apply rtc_refl.
  - eapply rtc_r; [apply IH; lia |].
    set (done := (fun i => Some (wrap_uint64 (Z.of_nat i))) <$> seq 1 k).
    assert (Hdone : length done = k).
    { unfold done. by rewrite length_fmap, length_seq. }
    pose proof (thread_calls k (in_launch_order N k)
                  (wrap_uint64 (Z.of_nat (S k)))
                  {| _cmarkup_unique_id := wrap_uint64 (Z.of_nat (S k)) |})
      as Hstep.
    replace (in_launch_order N (S k)) with
      {| shared := {| _cmarkup_unique_id := wrap_uint64 (Z.of_nat (S k)) |};
         returned := <[k := Some (wrap_uint64 (Z.of_nat (S k)))]>
                       (returned (in_launch_order N k)) |}.
    + apply Hstep.
      * unfold in_launch_order. cbn [returned]. fold done.
        rewrite lookup_app_r by lia. rewrite Hdone, Nat.sub_diag.
        apply lookup_replicate_2. lia.
      * rewrite increment_unfold. unfold in_launch_order.
        cbn [shared _cmarkup_unique_id].
        assert (Hw : wrap_uint64 (wrap_uint64 (Z.of_nat k) + 1) =
                     wrap_uint64 (Z.of_nat (S k))).
        { unfold wrap_uint64. rewrite Zplus_mod_idemp_l. f_equal. lia. }
        by rewrite Hw.
    + unfold in_launch_order. cbn [returned]. fold done. f_equal.
      rewrite seq_S, fmap_app. fold done. cbn [fmap list_fmap].
      replace (N - k)%nat with (S (N - S k)) by lia.
      rewrite <- (Nat.add_0_r k) at 1. rewrite <- Hdone at 1.
      rewrite insert_app_r. cbn. by rewrite <- app_assoc.
Qed.

Lemma in_launch_order_finished (N : nat) : finished (in_launch_order N N).
Proof.
  unfold finished, in_launch_order. cbn [returned].
  rewrite Nat.sub_diag, app_nil_r. apply Forall_fmap, Forall_forall.
  intros i _. by eexists.
Qed.

Lemma in_launch_order_values (N : nat) :
  returned_values (in_launch_order N N) =
    (fun i => wrap_uint64 (Z.of_nat i)) <$> seq 1 N.
Proof.
  unfold returned_values, in_launch_order. cbn [returned].
  rewrite Nat.sub_diag, app_nil_r.
  rewrite (list_fmap_compose (fun i => wrap_uint64 (Z.of_nat i)) Some).
  apply omap_id_fmap_Some.
Qed.

(** A thread that has not made its call can always make it: no call waits
    for another. *)
Lemma pool_progress (p : pool) :
  ~ finished p -> exists q, pool_step p q.
Proof.
  unfold finished. intros Hnot.
  apply not_Forall_Exists in Hnot; [| apply _].
  apply Exists_exists in Hnot as (o & Hin & Ho).
  apply list_elem_of_lookup in Hin as [t Ht].
  destruct o as [w |]; [by destruct Ho |].
  eexists. by eapply (thread_calls t p).
Qed.

(** Once there are [2^64] threads, the last one to run in launch order is
    handed [0], which is none of [1, ..., N]. *)
Lemma in_launch_order_wraps (N : nat) :
  Z.of_nat N = 2 ^ 64 ->
  0 ∈ returned_values (in_launch_order N N)
  /\ ~ returned_values (in_launch_order N N) ≡ₚ first_ids N.
Proof.
  intros HN.
  assert (Hzero : 0 ∈ returned_values (in_launch_order N N)).
  { rewrite in_launch_order_values. apply list_elem_of_fmap. exists N. split.
    - unfold wrap_uint64. by rewrite HN, Z_mod_same_full.
    - apply elem_of_seq. rewrite two_64 in HN. lia. }
  split; [exact Hzero |]. intros Hperm. rewrite Hperm in Hzero.
  unfold first_ids in Hzero.
  apply list_elem_of_fmap in Hzero as (i & Hi & Hin).
  apply elem_of_seq in Hin. lia.
Qed.

(** C9 (as amended).  Fewer than [2^64] threads are launched on a fresh
    process and each calls [incrementAndGet] once.  The threads can all finish,
    and however their calls interleave, once all have finished the values they
    got back are [1, ..., N] in some order, each exactly once. *)
Theorem concurrent_increments_hand_out_1_to_N (N : nat) :
  Z.of_nat N < 2 ^ 64 ->
  (exists p, execution N p /\ finished p)
  /\ forall p, execution N p -> finished p ->
       returned_values p ≡ₚ first_ids N /\ NoDup (returned_values p).
Proof.
  intros HN. split.
  - exists (in_launch_order N N).
    split; [by apply in_launch_order_execution | apply in_launch_order_finished].
  - intros p Hexec Hfin.
    destruct (execution_invariant N p HN Hexec) as (Hlen & k & _ & Hperm).
    assert (k = N) as ->.
    { apply Permutation_length in Hperm. rewrite first_ids_length in Hperm.
      unfold returned_values in Hperm.
      rewrite (omap_id_length_all _ Hfin) in Hperm. lia. }
    split; [exact Hperm |]. rewrite Hperm. apply first_ids_NoDup.
Qed.

Lemma concurrent_increments_hand_out_1_to_N_witness :
  Z.of_nat 3 < 2 ^ 64
  /\ execution 3 three_threads_done
  /\ finished three_threads_done
  /\ [2; 3; 1] ≡ₚ [1; 2; 3].
Proof.
  assert (Hexec : execution 3 three_threads_done).
  { unfold execution.
    eapply rtc_l;
      [apply (thread_calls 2 (launch 3) 1 {| _cmarkup_unique_id := 1 |});
       reflexivity |].
    eapply rtc_l;
      [apply (thread_calls 0 _ 2 {| _cmarkup_unique_id := 2 |});
       reflexivity |].
    eapply rtc_l;
      [apply (thread_calls 1 _ 3 {| _cmarkup_unique_id := 3 |});
       reflexivity |].
    apply rtc_refl. }
  assert (Hfin : finished three_threads_done).
  { unfold finished, three_threads_done. cbn [returned].
    repeat constructor; by eexists. }
  split; [reflexivity | split; [exact Hexec | split; [exact Hfin |]]].
  exact (proj1 (proj2 (concurrent_increments_hand_out_1_to_N 3 eq_refl)
                  three_threads_done Hexec Hfin)).
Defined.

(** C9 (as stated) fails for [N = 2^64] threads: run in launch order they all
    finish, and the last one is handed [0], so the values are not
    [1, ..., N]. *)
Lemma two_64_threads_hand_out_zero :
  execution two_64_threads (in_launch_order two_64_threads two_64_threads)
  /\ finished (in_launch_order two_64_threads two_64_threads)
  /\ 0 ∈ returned_values (in_launch_order two_64_threads two_64_threads)
  /\ ~ returned_values (in_launch_order two_64_threads two_64_threads)
        ≡ₚ first_ids two_64_threads.
Proof.
  split; [apply in_launch_order_execution; apply Nat.le_refl |].
  split; [apply in_launch_order_finished |].
  apply in_launch_order_wraps. unfold two_64_threads.
  apply Z2Nat.id. rewrite two_64. lia.
Qed.

(** ** Further properties of call sequences *)

(** Every call returns the counter value it leaves behind. *)
Lemma perform_returns_counter (c : call) (m : memory) :
  (perform c m).1 = _cmarkup_unique_id (perform c m).2.
Proof. by destruct c. Qed.

Lemma wrap_uint64_succ (a : Z) (n : nat) :
  wrap_uint64 (wrap_uint64 (a + 1) + Z.of_nat n) =
    wrap_uint64 (a + Z.of_nat (S n)).
Proof.
  unfold wrap_uint64. rewrite Zplus_mod_idemp_l. f_equal. lia.
Qed.

(** X1.  Run from a well-typed memory, a sequence of calls leaves the counter
    at its old value plus the number of [incrementAndGet] calls in the
    sequence, modulo [2^64]; the [current] calls in it count for nothing. *)
Theorem run_advances_by_increments (cs : list call) (m : memory) :
  well_typed m ->
  _cmarkup_unique_id (run cs m).2 =
    wrap_uint64 (_cmarkup_unique_id m + Z.of_nat (increments cs)).
Proof.
  revert m. induction cs as [| c cs IH]; intros m Hm.
  - cbn [run increments]. unfold ret. cbn [snd].
    rewrite Z.add_0_r. symmetry. by apply wrap_uint64_small.
  - rewrite run_cons. cbn [snd].
    rewrite IH by (by apply perform_well_typed).
    destruct c; cbn [increments]; unfold perform.
    + by rewrite current_unfold.
    + rewrite increment_unfold. cbn [snd _cmarkup_unique_id].
      apply wrap_uint64_succ.
Qed.

Lemma run_advances_by_increments_witness :
  well_typed {| _cmarkup_unique_id := 2 ^ 64 - 2 |}
  /\ _cmarkup_unique_id
       (run [IncrementAndGet; Current; IncrementAndGet; IncrementAndGet]
          {| _cmarkup_unique_id := 2 ^ 64 - 2 |}).2 = 1.
Proof.
  assert (H : well_typed {| _cmarkup_unique_id := 2 ^ 64 - 2 |}).
  { unfold well_typed, is_uint64, UINT64_MAX. simpl. lia. }
  split; [exact H |].
  exact (run_advances_by_increments
           [IncrementAndGet; Current; IncrementAndGet; IncrementAndGet] _ H).
Defined.

(** X2.  The identifiers a sequence of calls hands out, in call order, are
    the old counter plus 1, plus 2, ..., each modulo [2^64], one per
    [incrementAndGet] call, wherever [current] calls are placed between
    them. *)
Theorem run_issues_consecutive_ids (cs : list call) (m : memory) :
  omap issued_value (zip cs (run cs m).1) =
    (fun i => wrap_uint64 (_cmarkup_unique_id m + Z.of_nat i))
      <$> seq 1 (increments cs).
Proof.
  revert m. induction cs as [| c cs IH]; intros m; [done |].
  rewrite run_cons. cbn [fst].
  change (zip (c :: cs) (?v :: ?vs)) with ((c, v) :: zip cs vs).
  change (omap issued_value (?e :: ?l))
    with (match issued_value e with
          | Some w => w :: omap issued_value l
          | None => omap issued_value l
          end).
  rewrite IH.
  destruct c; unfold issued_value; cbn [increments fst snd]; unfold perform.
  - by rewrite current_unfold.
  - rewrite increment_unfold. cbn [fst snd _cmarkup_unique_id].
    change (seq 1 (S ?n)) with (1%nat :: seq 2 n). rewrite fmap_cons.
    f_equal.
    rewrite <- (fmap_S_seq 1), <- list_fmap_compose.
    apply list_fmap_ext. intros _ i _. cbn. apply wrap_uint64_succ.
Qed.

(** X3.  In a sequence of calls run from any memory, a [current] call that
    follows another call returns the value that call returned. *)
Theorem current_returns_previous_value (cs : list call) (m : memory)
    (j : nat) (v : Z) :
  cs !! S j = Some Current ->
  (run cs m).1 !! j = Some v ->
  (run cs m).1 !! S j = Some v.
Proof.
  revert m j. induction cs as [| c cs IH]; intros m j Hc Hv; [done |].
  rewrite run_cons in *. cbn [fst] in *. destruct j as [| j].
  - destruct cs as [| c' cs]; [done |]. cbn in Hc, Hv.
    injection Hc as ->. injection Hv as <-.
    rewrite run_cons. cbn [fst]. cbn [lookup list_lookup].
    unfold perform at 1. rewrite current_unfold. cbn [fst].
    by rewrite perform_returns_counter.
  - change ((run cs (perform c m).2).1 !! S j = Some v).
    change ((run cs (perform c m).2).1 !! j = Some v) in Hv.
    by apply IH.
Qed.

Lemma current_returns_previous_value_witness :
  (run [IncrementAndGet; Current; Current] {| _cmarkup_unique_id := 2 ^ 64 - 1 |}).1
    !! 1%nat = Some 0.
Proof.
  apply (current_returns_previous_value
           [IncrementAndGet; Current; Current]
           {| _cmarkup_unique_id := 2 ^ 64 - 1 |} 0 0); reflexivity.
Defined.

Lemma repeat_increment_succ (K : N) (m : memory) :
  _cmarkup_unique_id (repeat_call IncrementAndGet (N.succ K) m) =
    wrap_uint64 (_cmarkup_unique_id m + Z.of_N K + 1).
Proof.
  unfold repeat_call. induction K as [| K IH] using N.peano_ind.
  - cbn. by rewrite Z.add_0_r.
  - rewrite N.iter_succ. unfold perform at 1. rewrite increment_unfold.
    cbn [snd _cmarkup_unique_id]. rewrite IH. unfold wrap_uint64.
    rewrite Zplus_mod_idemp_l. f_equal. lia.
Qed.

(** The identifier handed out after [K] earlier increments. *)
Lemma next_id_after (K : N) (m : memory) :
  (_cmarkup_increment_and_get_unique_id
     (repeat_call IncrementAndGet K m)).1 =
    wrap_uint64 (_cmarkup_unique_id m + Z.of_N K + 1).
Proof.
  rewrite <- repeat_increment_succ. unfold repeat_call at 2.
  rewrite N.iter_succ. fold (repeat_call IncrementAndGet K m).
  apply (perform_returns_counter IncrementAndGet).
Qed.

(** X4.  Identifiers repeat with period exactly [2^64]: whatever the memory,
    the [incrementAndGet] calls made after [n] and after [n + d] earlier
    increments return the same value if and only if [d] is a multiple of
    [2^64]. *)
Theorem ids_repeat_every_2_64 (m : memory) (n d : N) :
  (_cmarkup_increment_and_get_unique_id
     (repeat_call IncrementAndGet (n + d) m)).1 =
  (_cmarkup_increment_and_get_unique_id
     (repeat_call IncrementAndGet n m)).1
  <-> (d mod 2 ^ 64 = 0)%N.
Proof.
  rewrite !next_id_after. unfold wrap_uint64. rewrite Z.cong_iff_0.
  replace (_cmarkup_unique_id m + Z.of_N (n + d) + 1 -
           (_cmarkup_unique_id m + Z.of_N n + 1)) with (Z.of_N d) by lia.
  change (2 ^ 64) with (Z.of_N (2 ^ 64)). rewrite <- N2Z.inj_mod.
  split; [intros H; apply N2Z.inj; exact H | intros ->; reflexivity].
Qed.

(** ** Threads that make any number of calls *)

Lemma wrapped_ids_length (k : nat) : length (wrapped_ids k) = k.
Proof. unfold wrapped_ids. by rewrite length_fmap, length_seq. Qed.

Lemma wrapped_ids_S (k : nat) :
  wrapped_ids (S k) = wrapped_ids k ++ [wrap_uint64 (Z.of_nat (S k))].
Proof. unfold wrapped_ids. by rewrite seq_S, fmap_app. Qed.

Lemma wrapped_ids_small (k : nat) :
  Z.of_nat k < 2 ^ 64 -> wrapped_ids k = first_ids k.
Proof.
  intros Hk. unfold wrapped_ids, first_ids. apply list_fmap_ext.
  intros i x Hx. apply lookup_seq in Hx as [-> Hi].
  apply wrap_uint64_small. unfold is_uint64, UINT64_MAX. lia.
Qed.

Lemma issued_boot (programs : list (list call)) : issued (boot programs) = [].
Proof.
  unfold issued, boot. cbn [threads].
  induction programs as [| cs programs IH]; [done |]. cbn. exact IH.
Qed.

(** Appending to the log of one thread adds to what was issued, up to the
    order in which [issued] lists the threads. *)
Lemma issued_insert (ths : list thread) (t : nat) (th th' : thread)
    (extra : list Z) :
  ths !! t = Some th ->
  omap issued_value (log th') = omap issued_value (log th) ++ extra ->
  concat ((fun th => omap issued_value (log th)) <$> <[t := th']> ths)
    ≡ₚ extra ++ concat ((fun th => omap issued_value (log th)) <$> ths).
Proof.
  revert t. induction ths as [| th0 ths IH]; intros t Ht Hlog; [done |].
  destruct t as [| t].
  - cbn in Ht. injection Ht as ->. cbn. rewrite Hlog.
    rewrite <- app_assoc. apply Permutation_app_swap_app.
  - cbn in Ht. cbn. rewrite (IH t Ht Hlog). apply Permutation_app_swap_app.
Qed.

(** One step either reads, and issues nothing, or issues the value the
    increment returns. *)
Lemma issued_step (sys sys' : system) :
  system_step sys sys' ->
  (mem sys' = mem sys /\ issued sys' ≡ₚ issued sys)
  \/ (mem sys' = (_cmarkup_increment_and_get_unique_id (mem sys)).2
      /\ issued sys' ≡ₚ
           (_cmarkup_increment_and_get_unique_id (mem sys)).1 :: issued sys).
Proof.
  intros [t sys0 c cs lg v m' Ht Hcall]. unfold issued. cbn [mem threads].
  destruct c; unfold perform in Hcall.
  - left. rewrite current_unfold in Hcall. injection Hcall as <- <-.
    split; [done |].
    rewrite (issued_insert _ _ _ _ [] Ht); [done |].
    cbn [log]. by rewrite omap_app.
  - right. rewrite Hcall. cbn [fst snd]. split; [done |].
    rewrite (issued_insert _ _ _ _ [v] Ht); [done |].
    cbn [log]. by rewrite omap_app.
Qed.

Lemma issued_step_length (sys sys' : system) :
  system_step sys sys' -> (length (issued sys) <= length (issued sys'))%nat.
Proof.
  intros Hstep. destruct (issued_step _ _ Hstep) as [[_ Hp] | [_ Hp]];
    apply Permutation_length in Hp; rewrite Hp; cbn; lia.
Qed.


(** The counter counts the identifiers issued, and these are the first
    identifiers as the counter reaches them. *)
Lemma reachable_issued (programs : list (list call)) (sys : system) :
  reachable programs sys ->
  exists k : nat,
    _cmarkup_unique_id (mem sys) = wrap_uint64 (Z.of_nat k)
    /\ issued sys ≡ₚ wrapped_ids k.
Proof.
  unfold reachable. revert sys. apply rtc_ind_r.
  - exists 0%nat. by rewrite issued_boot.
  - intros sys sys' _ Hstep (k & Hk & Hperm).
    destruct (issued_step _ _ Hstep) as [[-> Hp] | [-> Hp]].
    + exists k. by rewrite Hp.
    + exists (S k). rewrite increment_unfold in *. cbn [fst snd] in *.
      cbn [_cmarkup_unique_id]. rewrite Hk in *.
      assert (Hw : wrap_uint64 (wrap_uint64 (Z.of_nat k) + 1) =
                   wrap_uint64 (Z.of_nat (S k))).
      { unfold wrap_uint64. rewrite Zplus_mod_idemp_l. f_equal. lia. }
      rewrite Hw in *. split; [done |].
      rewrite Hp, Hperm, wrapped_ids_S. apply Permutation_cons_append.
Qed.

Lemma two_programs_done_reachable : reachable two_programs two_programs_done.
Proof.
  unfold reachable.
  eapply rtc_l;
    [apply (thread_performs 0 (boot two_programs) IncrementAndGet [Current] []
              1 {| _cmarkup_unique_id := 1 |}); reflexivity |].
  eapply rtc_l;
    [apply (thread_performs 1 _ Current [IncrementAndGet] []
              1 {| _cmarkup_unique_id := 1 |}); reflexivity |].
  eapply rtc_l;
    [apply (thread_performs 1 _ IncrementAndGet [] [(Current, 1)]
              2 {| _cmarkup_unique_id := 2 |}); reflexivity |].
  eapply rtc_l;
    [apply (thread_performs 0 _ Current [] [(IncrementAndGet, 1)]
              2 {| _cmarkup_unique_id := 2 |}); reflexivity |].
  apply rtc_refl.
Defined.

(** X5.  No increment is lost and none is served twice, for any number of
    threads making any number of calls, in every interleaving: the counter
    equals the number of identifiers issued so far modulo [2^64], and the
    identifiers issued are [1, 2, ..., that number], each modulo [2^64], in
    some order. *)
Theorem interleaved_increments_all_counted (programs : list (list call))
    (sys : system) :
  reachable programs sys ->
  _cmarkup_unique_id (mem sys) = Z.of_nat (length (issued sys)) mod 2 ^ 64
  /\ issued sys ≡ₚ wrapped_ids (length (issued sys)).
Proof.
  intros Hr. destruct (reachable_issued _ _ Hr) as (k & Hk & Hperm).
  apply Permutation_length in Hperm as Hlen.
  rewrite wrapped_ids_length in Hlen. rewrite Hlen. by split.
Qed.

Lemma interleaved_increments_all_counted_witness :
  _cmarkup_unique_id (mem two_programs_done) =
    Z.of_nat (length (issued two_programs_done)) mod 2 ^ 64
  /\ issued two_programs_done ≡ₚ wrapped_ids (length (issued two_programs_done)).
Proof.
  exact (interleaved_increments_all_counted two_programs two_programs_done
           two_programs_done_reachable).
Defined.

(** X6.  Identifiers are unique across threads: in every interleaving of
    threads making any number of calls, as long as fewer than [2^64]
    identifiers have been issued, the identifiers issued are pairwise distinct
    and are exactly [1, ..., n] for the number [n] issued. *)
Theorem interleaved_ids_unique (programs : list (list call)) (sys : system) :
  reachable programs sys ->
  Z.of_nat (length (issued sys)) < 2 ^ 64 ->
  NoDup (issued sys) /\ issued sys ≡ₚ first_ids (length (issued sys)).
Proof.
  intros Hr Hlt. destruct (reachable_issued _ _ Hr) as (k & _ & Hperm).
  apply Permutation_length in Hperm as Hlen.
  rewrite wrapped_ids_length in Hlen. rewrite Hlen in *.
  rewrite wrapped_ids_small in Hperm by done.
  split; [| exact Hperm]. rewrite Hperm. apply first_ids_NoDup.
Qed.

Lemma interleaved_ids_unique_witness :
  Z.of_nat (length (issued two_programs_done)) < 2 ^ 64
  /\ NoDup (issued two_programs_done)
  /\ issued two_programs_done ≡ₚ first_ids (length (issued two_programs_done)).
Proof.
  split; [reflexivity |].
  exact (interleaved_ids_unique two_programs two_programs_done
           two_programs_done_reachable eq_refl).
Defined.

Lemma issued_after_call (sys : system) (t : nat) (c : call)
    (cs : list call) (lg : list (call * Z)) (v : Z) (m' : memory) :
  threads sys !! t = Some {| todo := c :: cs; log := lg |} ->
  issued {| mem := m';
            threads := <[t := {| todo := cs; log := lg ++ [(c, v)] |}]>
                         (threads sys) |}
    ≡ₚ omap issued_value [(c, v)] ++ issued sys.
Proof.
  intros Ht. unfold issued. cbn [threads].
  apply (issued_insert _ _ _ _ _ Ht). cbn [log]. by rewrite omap_app.
Qed.

(** While the counter has not wrapped it equals the number of identifiers
    issued, bounds every value any thread has got back, and every thread has
    got its values back in ascending order. *)
Lemma reachable_no_wrap (programs : list (list call)) (sys : system) :
  reachable programs sys ->
  Z.of_nat (length (issued sys)) < 2 ^ 64 ->
  _cmarkup_unique_id (mem sys) = Z.of_nat (length (issued sys))
  /\ forall (t : nat) (th : thread),
       threads sys !! t = Some th ->
       Forall (fun e => e.2 <= _cmarkup_unique_id (mem sys)) (log th)
       /\ forall (i j : nat) (ei ej : call * Z),
            (i < j)%nat -> log th !! i = Some ei -> log th !! j = Some ej ->
            ei.2 <= ej.2 /\ (ej.1 = IncrementAndGet -> ei.2 < ej.2).
Proof.
  intros Hr Hlt. split.
  { destruct (reachable_issued _ _ Hr) as (k & Hk & Hperm).
    apply Permutation_length in Hperm. rewrite wrapped_ids_length in Hperm.
    rewrite Hk, Hperm. apply wrap_uint64_small.
    unfold is_uint64, UINT64_MAX. lia. }
  revert sys Hr Hlt. unfold reachable. apply (rtc_ind_r (fun sys =>
    Z.of_nat (length (issued sys)) < 2 ^ 64 ->
    forall (t : nat) (th : thread),
      threads sys !! t = Some th ->
      Forall (fun e => e.2 <= _cmarkup_unique_id (mem sys)) (log th)
      /\ forall (i j : nat) (ei ej : call * Z),
           (i < j)%nat -> log th !! i = Some ei -> log th !! j = Some ej ->
           ei.2 <= ej.2 /\ (ej.1 = IncrementAndGet -> ei.2 < ej.2))).
  - intros _ t th Hth. unfold boot in Hth. cbn [threads] in Hth.
    apply list_lookup_fmap_Some in Hth as (cs & -> & _). cbn [log].
    split; [constructor | intros i j ei ej _ Hi; done].
  - intros sys sys' Hr Hstep IH Hlt t' th' Hth'.
    pose proof (issued_step_length _ _ Hstep) as Hgrow.
    assert (Hlt0 : Z.of_nat (length (issued sys)) < 2 ^ 64) by lia.
    specialize (IH Hlt0).
    destruct (reachable_issued _ _ Hr) as (k & Hk & Hperm).
    apply Permutation_length in Hperm. rewrite wrapped_ids_length in Hperm.
    rewrite <- Hperm in Hk. clear k Hperm.
    rewrite wrap_uint64_small in Hk by (unfold is_uint64, UINT64_MAX; lia).
    destruct Hstep as [t sys c cs lg v m' Ht Hcall].
    pose proof (issued_after_call sys t c cs lg v m' Ht) as Hiss.
    apply Permutation_length in Hiss. rewrite length_app in Hiss.
    rewrite Hiss in Hlt. clear Hiss Hgrow.
    cbn [mem threads] in *.
    assert (Hfacts : _cmarkup_unique_id (mem sys) <= v
                     /\ v = _cmarkup_unique_id m'
                     /\ (c = IncrementAndGet -> _cmarkup_unique_id (mem sys) < v)).
    { destruct c; unfold perform in Hcall.
      - rewrite current_unfold in Hcall. injection Hcall as <- <-.
        split; [lia | split; [done | done]].
      - rewrite increment_unfold in Hcall.
        change (omap issued_value [(IncrementAndGet, v)]) with [v] in Hlt.
        cbn [length] in Hlt.
        rewrite wrap_uint64_small in Hcall
          by (unfold is_uint64, UINT64_MAX; lia).
        injection Hcall as <- <-. cbn [_cmarkup_unique_id].
        split; [lia | split; [done | lia]]. }
    destruct Hfacts as (Hge & Hv & Hinc).
    apply list_lookup_insert_Some in Hth' as [(<- & <- & _) | (_ & Hth')].
    + destruct (IH _ _ Ht) as [Hbound Hord]. cbn [log] in *. split.
      * apply Forall_app. split.
        -- eapply Forall_impl; [exact Hbound |]. cbn. intros e He. lia.
        -- constructor; [cbn; lia | constructor].
      * intros i j ei ej Hij Hi Hj.
        apply lookup_snoc_Some in Hj as [[Hjlt Hj] | [Hjeq <-]].
        -- rewrite lookup_app_l in Hi by lia. exact (Hord i j ei ej Hij Hi Hj).
        -- rewrite lookup_app_l in Hi by lia.
           rewrite Forall_lookup in Hbound. specialize (Hbound _ _ Hi).
           cbn in *. split; [lia | intros Hc; specialize (Hinc Hc); lia].
    + destruct (IH _ _ Hth') as [Hbound Hord]. split; [| exact Hord].
      eapply Forall_impl; [exact Hbound |]. cbn. intros e He. lia.
Qed.

(** X7.  Each thread sees the counter go up: in every interleaving, while
    fewer than [2^64] identifiers have been issued, the values a thread got
    back from its successive calls never decrease, and a value got from
    [incrementAndGet] is strictly greater than every value the same thread
    got before, whatever the other threads did in between. *)
Theorem thread_values_ascend (programs : list (list call)) (sys : system)
    (t : nat) (th : thread) (i j : nat) (ci cj : call) (vi vj : Z) :
  reachable programs sys ->
  Z.of_nat (length (issued sys)) < 2 ^ 64 ->
  threads sys !! t = Some th ->
  (i < j)%nat ->
  log th !! i = Some (ci, vi) ->
  log th !! j = Some (cj, vj) ->
  vi <= vj /\ (cj = IncrementAndGet -> vi < vj).
Proof.
  intros Hr Hlt Hth Hij Hi Hj.
  destruct (reachable_no_wrap _ _ Hr Hlt) as [_ Hall].
  destruct (Hall _ _ Hth) as [_ Hord].
  exact (Hord i j (ci, vi) (cj, vj) Hij Hi Hj).
Qed.

Lemma thread_values_ascend_witness :
  1 <= 2 /\ (IncrementAndGet = IncrementAndGet -> 1 < 2).
Proof.
  exact (thread_values_ascend two_programs two_programs_done 1
           {| todo := []; log := [(Current, 1); (IncrementAndGet, 2)] |}
           0 1 Current IncrementAndGet 1 2
           two_programs_done_reachable eq_refl eq_refl
           (Nat.lt_succ_diag_r 0) eq_refl eq_refl).
Defined.

(** X8.  A new identifier is new to every thread: at every point of every
    interleaving where the next increment does not wrap (fewer than
    [2^64 - 1] identifiers issued), the value the next [incrementAndGet]
    returns is strictly greater than every value any thread has got back so
    far from either function. *)
Theorem next_id_exceeds_all_seen (programs : list (list call)) (sys : system)
    (t : nat) (th : thread) (c : call) (v : Z) :
  reachable programs sys ->
  Z.of_nat (length (issued sys)) < 2 ^ 64 - 1 ->
  threads sys !! t = Some th ->
  (c, v) ∈ log th ->
  v < (_cmarkup_increment_and_get_unique_id (mem sys)).1.
Proof.
  intros Hr Hlt Hth Hin.
  assert (Hlt' : Z.of_nat (length (issued sys)) < 2 ^ 64) by lia.
  destruct (reachable_no_wrap _ _ Hr Hlt') as [Hk Hall].
  destruct (Hall _ _ Hth) as [Hbound _].
  rewrite Forall_forall in Hbound. specialize (Hbound _ Hin). cbn in Hbound.
  rewrite increment_unfold. cbn [fst].
  rewrite wrap_uint64_small by (unfold is_uint64, UINT64_MAX; lia). lia.
Qed.

Lemma next_id_exceeds_all_seen_witness :
  2 < (_cmarkup_increment_and_get_unique_id (mem two_programs_done)).1.
Proof.
  apply (next_id_exceeds_all_seen two_programs two_programs_done 0
           {| todo := []; log := [(IncrementAndGet, 1); (Current, 2)] |}
           Current 2 two_programs_done_reachable eq_refl eq_refl).
  apply list_elem_of_further, list_elem_of_here.
Defined.



End CAtomic.
